(** * Shader build driver ([compile_shaders.py])

    A shallow embedding of the driver script and the properties of its
    path derivation, its per-item error handling and its exit status.

    Strings are sequences of characters ([string]); the pattern that is
    replaced is ASCII, so replacing on characters and on UTF-8 bytes agree.
    The file system and the external compiler are an oracle: a type of
    worlds, a regular-file test on a world, and a function that runs a
    command to completion in a world.  Standard output is a test telling
    which lines its encoding takes.  Console output and compiler
    invocations are recorded, in order, in a trace. *)

From Stdlib Require Import String Ascii List ZArith Lia Bool.
Import ListNotations.
Open Scope string_scope.

(** ** Strings: [str.replace] and [+] *)

Module Str.

(** [startswith old s]: [s] begins with [old]. *)
Fixpoint startswith (old s : string) : bool :=
  match old, s with
  | EmptyString, _ => true
  | String a old', String b s' => Ascii.eqb a b && startswith old' s'
  | String _ _, EmptyString => false
  end.

(** [s[n:]]. *)
Fixpoint drop (n : nat) (s : string) : string :=
  match n, s with
  | O, _ => s
  | S n', String _ s' => drop n' s'
  | S _, EmptyString => EmptyString
  end.

(** Python's [s.replace(old, new)] for a non-empty [old]: scan [s] from the
    left; at a position where [old] starts, emit [new] and resume after the
    match, otherwise copy one character.  [skip] counts the characters of
    the current match that are still to be passed over, so that matches
    never overlap. *)
Fixpoint scan (old new : string) (skip : nat) (s : string) : string :=
  match s with
  | EmptyString => EmptyString
  | String c s' =>
      match skip with
      | S k => scan old new k s'
      | O =>
          if startswith old s
          then new ++ scan old new (String.length old - 1) s'
          else String c (scan old new 0 s')
      end
  end.

(** With an empty [old], Python inserts [new] before every character and
    at the end. *)
Fixpoint interleave (new s : string) : string :=
  match s with
  | EmptyString => new
  | String c s' => new ++ String c (interleave new s')
  end.

Definition replace (s old new : string) : string :=
  match old with
  | EmptyString => interleave new s
  | String _ _ => scan old new 0 s
  end.

(** [old] occurs in [s] as a substring. *)
Definition occurs (old s : string) : Prop :=
  exists a b, s = a ++ old ++ b.

(** Python's [old in s]. *)
Fixpoint contains (old s : string) : bool :=
  startswith old s ||
  match s with
  | EmptyString => false
  | String _ s' => contains old s'
  end.

(** Python's [s.isascii()]: every character is below 128. *)
Fixpoint isascii (s : string) : bool :=
  match s with
  | EmptyString => true
  | String (Ascii _ _ _ _ _ _ _ b7) s' => negb b7 && isascii s'
  end.

(** The leftmost occurrence of [old] in [s] starts right after [pre] and is
    followed by [post]. *)
Definition first_occurrence (old s pre post : string) : Prop :=
  s = pre ++ old ++ post /\
  forall a b, s = a ++ old ++ b -> String.length pre <= String.length a.

(** [r] is [s] with every occurrence of [old] replaced by [new], the
    occurrences being found from the left and each search starting where
    the previous occurrence ended. *)
Inductive replaced_all (old new : string) : string -> string -> Prop :=
| replaced_none s :
    ~ occurs old s -> replaced_all old new s s
| replaced_first s pre post r :
    first_occurrence old s pre post ->
    replaced_all old new post r ->
    replaced_all old new s (pre ++ new ++ r).

End Str.

(** ** [compile_shader]: the path derivation and the command *)

(** [output_path = shader_path.replace('shaders', 'bin') + ".spv"] *)
Definition output_path (shader_path : string) : string :=
  Str.replace shader_path "shaders" "bin" ++ ".spv".

(** [command = ['glslc', shader_path, '-o', output_path]] *)
Definition command (shader_path : string) : list string :=
  ["glslc"; shader_path; "-o"; output_path shader_path].

(** What the specification's data model describes instead: only the FIRST
    occurrence of [old] is replaced. *)
Fixpoint spec_replace_first (old new s : string) : string :=
  match s with
  | EmptyString => EmptyString
  | String c s' =>
      if Str.startswith old s
      then new ++ Str.drop (String.length old) s
      else String c (spec_replace_first old new s')
  end.

Definition spec_output_path (shader_path : string) : string :=
  spec_replace_first "shaders" "bin" shader_path ++ ".spv".


(** ** Effects: console, subprocesses, exceptions *)

(** How [subprocess.run] ends: the child ran and exited with a return code,
    or it could not be started and the operating system reported why. *)
Inductive outcome : Type :=
| Exited (returncode : Z)
| NotStarted (detail : string).

(** What the driver does to the outside, in order: a line printed on
    standard output, a command run to completion with its outcome, or an
    attempt to print a line that standard output cannot encode (nothing is
    written then, and [print] raises). *)
Inductive event : Type :=
| Print (line : string)
| Run (argv : list string) (o : outcome)
| PrintRaised (line : string).

Inductive exn : Type :=
| CalledProcessError (returncode : Z) (cmd : list string)
| OSError (detail : string)
| SystemExit (code : Z)
| UnicodeEncodeError (line : string).

(** What a computation leaves behind: the trace it emitted, the world it
    ended in, and the value it returned or the exception it raised. *)
Definition Res (W A : Type) : Type := (list event * W * (A + exn))%type.

Definition trace {W A} (r : Res W A) : list event := fst (fst r).
Definition world {W A} (r : Res W A) : W := snd (fst r).
Definition completion {W A} (r : Res W A) : A + exn := snd r.

(** [r], after the events [t] happened first. *)
Definition prepend {W A} (t : list event) (r : Res W A) : Res W A :=
  ((t ++ trace r)%list, world r, completion r).

(** A computation over worlds [W]. *)
Definition Py (W A : Type) : Type := W -> Res W A.

Definition ret {W A} (a : A) : Py W A := fun w => ([], w, inl a).

Definition bind {W A B} (m : Py W A) (k : A -> Py W B) : Py W B :=
  fun w =>
    match m w with
    | (t, w', inl a) => prepend t (k a w')
    | (t, w', inr e) => (t, w', inr e)
    end.

Definition raise {W A} (e : exn) : Py W A := fun w => ([], w, inr e).

(** [try: body  except <the e with handler e = Some h>: h]. *)
Definition try_except {W A} (body : Py W A) (handler : exn -> option (Py W A))
  : Py W A :=
  fun w =>
    match body w with
    | (t, w', inl a) => (t, w', inl a)
    | (t, w', inr e) =>
        match handler e with
        | Some h => prepend t (h w')
        | None => (t, w', inr e)
        end
    end.

Notation "x <- m ;; k" := (bind m (fun x => k))
  (at level 61, m at next level, right associativity).
Notation "m ;; k" := (bind m (fun _ => k))
  (at level 61, right associativity).

(** The interpreter's exit status: 0 when the script runs to its end, the
    code given to [sys.exit], 1 for any other uncaught exception. *)
Definition exit_status {W A} (r : Res W A) : Z :=
  match completion r with
  | inl _ => 0
  | inr (SystemExit code) => code
  | inr _ => 1
  end.

(** The commands that were run, in order. *)
Fixpoint commands_run (t : list event) : list (list string) :=
  match t with
  | [] => []
  | Run argv _ :: t' => argv :: commands_run t'
  | Print _ :: t' => commands_run t'
  | PrintRaised _ :: t' => commands_run t'
  end.

(** The lines that were printed, in order. *)
Fixpoint printed (t : list event) : list string :=
  match t with
  | [] => []
  | Print line :: t' => line :: printed t'
  | Run _ _ :: t' => printed t'
  | PrintRaised _ :: t' => printed t'
  end.

(** ** The environment *)

(** What the driver takes from outside. *)
Record Env : Type := {
  (** the state of the file system and of everything else the external
      compiler may read or change *)
  World : Type;
  (** [os.path.isfile] *)
  isfile : World -> string -> bool;
  (** starting a command and waiting until it has finished *)
  spawn : World -> list string -> World * outcome;
  (** [str(e)] for a [CalledProcessError] with this return code and command *)
  str_CalledProcessError : Z -> list string -> string;
  (** whether standard output, with its encoding and its error handler,
      can encode this line; a path argument that is not valid in the
      locale's encoding makes a line that a strict handler refuses *)
  encodable : string -> bool;
  (** whatever its encoding, standard output takes ASCII text *)
  encodable_ascii :
    forall line, Str.isascii line = true -> encodable line = true
}.

(** ** The driver *)

Section Driver.

Variable E : Env.

(** [print(line)]: the line goes to standard output, or the encoder of
    standard output raises and nothing is written. *)
Definition print (line : string) : Py (World E) unit :=
  fun w =>
    if encodable E line then ([Print line], w, inl tt)
    else ([PrintRaised line], w, inr (UnicodeEncodeError line)).

Definition os_path_isfile (path : string) : Py (World E) bool :=
  fun w => ([], w, inl (isfile E w path)).

(** [subprocess.run(cmd, check=True)] *)
Definition subprocess_run (cmd : list string) : Py (World E) unit :=
  fun w =>
    let '(w', o) := spawn E w cmd in
    ([Run cmd o], w',
     match o with
     | Exited rc => if Z.eqb rc 0 then inl tt
                    else inr (CalledProcessError rc cmd)
     | NotStarted detail => inr (OSError detail)
     end).

Definition compile_shader (shader_path : string) : Py (World E) unit :=
  try_except
    (subprocess_run (command shader_path) ;;
     print ("Compiled " ++ shader_path ++ " to " ++ output_path shader_path))
    (fun e =>
       match e with
       | CalledProcessError rc cmd =>
           Some (print ("Error compiling " ++ shader_path ++ ": "
                        ++ str_CalledProcessError E rc cmd))
       | _ => None
       end).

(** The body of [for shader in sys.argv[1:]]. *)
Definition visit (shader : string) : Py (World E) unit :=
  found <- os_path_isfile shader ;;
  if found then compile_shader shader
  else print ("File not found: " ++ shader).

Fixpoint for_each (shaders : list string) : Py (World E) unit :=
  match shaders with
  | [] => ret tt
  | shader :: rest => visit shader ;; for_each rest
  end.

Definition usage : string :=
  "Usage: compile_shaders.py <shader1> <shader2> ...".

(** The [__main__] block, given [sys.argv]. *)
Definition main (argv : list string) : Py (World E) unit :=
  (if Nat.ltb (List.length argv) 2
   then print usage ;; raise (SystemExit 1)
   else ret tt) ;;
  for_each (tl argv).

(** The line that [compile_shader] prints for a compiler that exited with
    the return code [rc]. *)
Definition report (shader_path : string) (rc : Z) : string :=
  if Z.eqb rc 0
  then "Compiled " ++ shader_path ++ " to " ++ output_path shader_path
  else "Error compiling " ++ shader_path ++ ": "
       ++ str_CalledProcessError E rc (command shader_path).

(** The ways one iteration of the loop can go. *)
Inductive visited (p : string) (w : World E) : Res (World E) unit -> Prop :=
| visited_missing :
    isfile E w p = false ->
    visited p w (print ("File not found: " ++ p) w)
| visited_exited w' rc :
    isfile E w p = true ->
    spawn E w (command p) = (w', Exited rc) ->
    visited p w (prepend [Run (command p) (Exited rc)] (print (report p rc) w'))
| visited_not_started w' d :
    isfile E w p = true ->
    spawn E w (command p) = (w', NotStarted d) ->
    visited p w ([Run (command p) (NotStarted d)], w', inr (OSError d)).

End Driver.

(** ** Concrete environments *)

Module Demo.

(** A world is the list of regular files on disk. *)
Definition files : Type := list string.

Definition is_on_disk (w : files) (path : string) : bool :=
  existsb (String.eqb path) w.

(** A compiler that rejects [shaders/bad.vert] with status 1 and
    otherwise writes its output file. *)
Definition glslc (w : files) (cmd : list string) : files * outcome :=
  match cmd with
  | [_; src; _; out] =>
      if String.eqb src "shaders/bad.vert" then (w, Exited 1)
      else (out :: w, Exited 0)
  | _ => (w, Exited 2)
  end.

(** No compiler on the search path. *)
Definition no_glslc (w : files) (cmd : list string) : files * outcome :=
  (w, NotStarted "[Errno 2] No such file or directory: 'glslc'").

(** A compiler that checks its input and writes nothing. *)
Definition glslc_check_only (w : files) (cmd : list string) : files * outcome :=
  (w, Exited match cmd with
             | [_; src; _; _] =>
                 if String.eqb src "shaders/bad.vert" then 1 else 0
             | _ => 2
             end).

Definition str_error (rc : Z) (cmd : list string) : string :=
  "Command returned non-zero exit status.".

(** Standard output with the ASCII encoding and the strict error handler. *)
Definition env : Env :=
  {| World := files; isfile := is_on_disk; spawn := glslc;
     str_CalledProcessError := str_error;
     encodable := Str.isascii; encodable_ascii := fun _ H => H |}.

Definition env_without_compiler : Env :=
  {| World := files; isfile := is_on_disk; spawn := no_glslc;
     str_CalledProcessError := str_error;
     encodable := Str.isascii; encodable_ascii := fun _ H => H |}.

Definition env_check_only : Env :=
  {| World := files; isfile := is_on_disk; spawn := glslc_check_only;
     str_CalledProcessError := str_error;
     encodable := Str.isascii; encodable_ascii := fun _ H => H |}.

Definition disk : files :=
  ["shaders/a.vert"; "shaders/bad.vert"; "shaders/b.frag"; "plain.vert"].

(** A file name holding the byte 255, which no UTF-8 text contains. *)
Definition raw_name : string := "shaders/" ++ String "255"%char ".vert".

Definition disk_with_raw_name : files := raw_name :: disk.

Definition run (argv : list string) : Res files unit :=
  main env argv disk.

Definition run_without_compiler (argv : list string) : Res files unit :=
  main env_without_compiler argv disk.

End Demo.

(** * Properties *)

Example output_path_a_vert : output_path "shaders/a.vert" = "bin/a.vert.spv".
Proof. reflexivity. Qed.

Example output_path_overlap : output_path "shadershaders" = "binhaders.spv".
Proof. reflexivity. Qed.

Example replace_empty_old : Str.replace "abc" "" "-" = "-a-b-c-".
Proof. reflexivity. Qed.

Example scenario_success :
  Demo.run ["compile_shaders.py"; "shaders/a.vert"] =
  ([Run ["glslc"; "shaders/a.vert"; "-o"; "bin/a.vert.spv"] (Exited 0);
    Print "Compiled shaders/a.vert to bin/a.vert.spv"],
   "bin/a.vert.spv" :: Demo.disk, inl tt).
Proof. reflexivity. Qed.

Example scenario_missing :
  Demo.run ["compile_shaders.py"; "shaders/missing.vert"] =
  ([Print "File not found: shaders/missing.vert"], Demo.disk, inl tt).
Proof. reflexivity. Qed.

Example scenario_bad :
  Demo.run ["compile_shaders.py"; "shaders/bad.vert"; "shaders/b.frag"] =
  ([Run ["glslc"; "shaders/bad.vert"; "-o"; "bin/bad.vert.spv"] (Exited 1);
    Print "Error compiling shaders/bad.vert: Command returned non-zero exit status.";
    Run ["glslc"; "shaders/b.frag"; "-o"; "bin/b.frag.spv"] (Exited 0);
    Print "Compiled shaders/b.frag to bin/b.frag.spv"],
   "bin/b.frag.spv" :: Demo.disk, inl tt).
Proof. reflexivity. Qed.

Example scenario_usage :
  Demo.run ["compile_shaders.py"] =
  ([Print "Usage: compile_shaders.py <shader1> <shader2> ..."], Demo.disk,
   inr (SystemExit 1)).
Proof. reflexivity. Qed.

Example scenario_no_compiler :
  Demo.run_without_compiler
    ["compile_shaders.py"; "shaders/a.vert"; "shaders/b.frag"] =
  ([Run ["glslc"; "shaders/a.vert"; "-o"; "bin/a.vert.spv"]
      (NotStarted "[Errno 2] No such file or directory: 'glslc'")],
   Demo.disk,
   inr (OSError "[Errno 2] No such file or directory: 'glslc'")).
Proof. reflexivity. Qed.

Example scenario_raw_name_missing :
  Demo.run ["compile_shaders.py"; Demo.raw_name; "shaders/a.vert"] =
  ([PrintRaised ("File not found: " ++ Demo.raw_name)], Demo.disk,
   inr (UnicodeEncodeError ("File not found: " ++ Demo.raw_name))).
Proof. reflexivity. Qed.

Example scenario_raw_name_compiled :
  main Demo.env ["compile_shaders.py"; Demo.raw_name; "shaders/a.vert"]
       Demo.disk_with_raw_name =
  ([Run (command Demo.raw_name) (Exited 0);
    PrintRaised ("Compiled " ++ Demo.raw_name ++ " to "
                 ++ output_path Demo.raw_name)],
   output_path Demo.raw_name :: Demo.disk_with_raw_name,
   inr (UnicodeEncodeError ("Compiled " ++ Demo.raw_name ++ " to "
                            ++ output_path Demo.raw_name))).
Proof. reflexivity. Qed.

(** ** Facts about [str.replace] *)

Module StrFacts.
Import Str.

Lemma append_assoc (a b c : string) : (a ++ b) ++ c = a ++ (b ++ c).
Proof. induction a as [|x a IH]; simpl; [reflexivity | now rewrite IH]. Qed.

Lemma length_append (a b : string) :
  String.length (a ++ b) = String.length a + String.length b.
Proof. induction a as [|x a IH]; simpl; [reflexivity | now rewrite IH]. Qed.

Lemma startswith_append (old rest : string) : startswith old (old ++ rest) = true.
Proof.
  induction old as [|x old IH]; simpl; [reflexivity|].
  now rewrite Ascii.eqb_refl, IH.
Qed.

Lemma startswith_inv (old s : string) :
  startswith old s = true -> exists rest, s = old ++ rest.
Proof.
  revert s; induction old as [|x old IH]; intros s H.
  - now exists s.
  - destruct s as [|y s]; simpl in H; [discriminate|].
    apply andb_prop in H as [Hxy Hs].
    apply Ascii.eqb_eq in Hxy; subst y.
    destruct (IH _ Hs) as [rest ->].
    now exists rest.
Qed.

Lemma drop_append (a b : string) : drop (String.length a) (a ++ b) = b.
Proof. induction a as [|x a IH]; simpl; [now destruct b | exact IH]. Qed.

(** Skipping [k] characters is resuming the scan [k] characters later. *)
Lemma scan_skip (old new : string) (k : nat) (s : string) :
  scan old new k s = scan old new 0 (drop k s).
Proof.
  revert k; induction s as [|c s IH]; intros [|k]; simpl; try reflexivity.
  apply IH.
Qed.

(** At a match the scan emits [new] and resumes after the match. *)
Lemma scan_match (x : ascii) (old new rest : string) :
  scan (String x old) new 0 (String x old ++ rest) =
  new ++ scan (String x old) new 0 rest.
Proof.
  cbn [append scan].
  change (String x (old ++ rest)) with (String x old ++ rest).
  rewrite startswith_append.
  rewrite scan_skip.
  replace (String.length (String x old) - 1) with (String.length old)
    by (cbn [String.length]; lia).
  now rewrite drop_append.
Qed.

(** Elsewhere it copies one character. *)
Lemma scan_copy (old new : string) (c : ascii) (s : string) :
  startswith old (String c s) = false ->
  scan old new 0 (String c s) = String c (scan old new 0 s).
Proof. intros H. cbn [scan]. now rewrite H. Qed.

Lemma no_match_here (old : string) (c : ascii) (s : string) :
  (forall a b, String c s = a ++ old ++ b -> a <> "") ->
  startswith old (String c s) = false.
Proof.
  intros H. destruct (startswith old (String c s)) eqn:E; [|reflexivity].
  destruct (startswith_inv _ _ E) as [rest Hr].
  now destruct (H "" rest Hr).
Qed.

Lemma occurs_tail (old : string) (c : ascii) (s : string) :
  occurs old s -> occurs old (String c s).
Proof. intros (a & b & ->). now exists (String c a), b. Qed.

(** A string without the pattern is returned as it is. *)
Lemma scan_no_occurrence (old new s : string) :
  ~ occurs old s -> scan old new 0 s = s.
Proof.
  induction s as [|c s IH]; intros H; [reflexivity|].
  rewrite scan_copy.
  - f_equal. apply IH. intros Ho. apply H. now apply occurs_tail.
  - apply no_match_here. intros a b Hab _. apply H. now exists a, b.
Qed.

(** The leftmost occurrence is replaced and the scan goes on after it. *)
Lemma scan_first_occurrence (x : ascii) (old new s pre post : string) :
  first_occurrence (String x old) s pre post ->
  scan (String x old) new 0 s = pre ++ new ++ scan (String x old) new 0 post.
Proof.
  intros [-> Hmin]. induction pre as [|c pre IH].
  - apply scan_match.
  - cbn [append]. rewrite scan_copy.
    + f_equal. apply IH. intros a b Hab.
      pose proof (Hmin (String c a) b (f_equal (String c) Hab)) as Hle.
      cbn [String.length] in Hle. lia.
    + apply no_match_here. intros a b Hab ->.
      pose proof (Hmin "" b Hab) as Hle. cbn [String.length] in Hle. lia.
Qed.

(** A pattern that occurs has a leftmost occurrence. *)
Lemma first_occurrence_exists (old s : string) :
  occurs old s -> exists pre post, first_occurrence old s pre post.
Proof.
  induction s as [|c s IH]; intros Ho.
  - destruct Ho as (a & b & Hab). exists "", b.
    destruct a; [|discriminate]. split; [exact Hab | intros; cbn; lia].
  - destruct (startswith old (String c s)) eqn:E.
    + destruct (startswith_inv _ _ E) as [rest Hr].
      exists "", rest. split; [exact Hr | intros; cbn; lia].
    + assert (Hne : forall a b, String c s = a ++ old ++ b ->
                exists a', a = String c a' /\ s = a' ++ old ++ b).
      { intros [|y a] b Hab.
        - change (String c s = old ++ b) in Hab.
          rewrite Hab, startswith_append in E. discriminate.
        - change (String c s = String y (a ++ old ++ b)) in Hab.
          injection Hab as -> ->. now exists a. }
      destruct Ho as (a & b & Hab).
      destruct (Hne _ _ Hab) as (a' & -> & Hs).
      destruct IH as (pre & post & -> & Hmin); [now exists a', b|].
      exists (String c pre), post. split; [reflexivity|].
      intros a2 b2 H2. destruct (Hne _ _ H2) as (a3 & -> & H3).
      cbn [String.length]. apply le_n_S. exact (Hmin _ _ H3).
Qed.

Lemma contains_spec (old s : string) : contains old s = true <-> occurs old s.
Proof.
  induction s as [|c s IH].
  - cbn [contains]. rewrite orb_false_r. split.
    + intros H. destruct (startswith_inv _ _ H) as [rest Hr]. now exists "", rest.
    + intros ([|y a] & b & Hab); [|discriminate].
      change ("" = old ++ b) in Hab. rewrite Hab. apply startswith_append.
  - cbn [contains]. rewrite orb_true_iff, IH. split.
    + intros [H | H]; [|now apply occurs_tail].
      destruct (startswith_inv _ _ H) as [rest Hr]. now exists "", rest.
    + intros ([|y a] & b & Hab).
      * left. change (String c s = old ++ b) in Hab.
        rewrite Hab. apply startswith_append.
      * right. change (String c s = String y (a ++ old ++ b)) in Hab.
        injection Hab as _ ->. now exists a, b.
Qed.

Lemma contains_false (old s : string) : contains old s = false -> ~ occurs old s.
Proof. intros H Ho. apply contains_spec in Ho. congruence. Qed.

Lemma occurs_dec (old s : string) : occurs old s \/ ~ occurs old s.
Proof.
  destruct (contains old s) eqn:E.
  - left. now apply contains_spec.
  - right. now apply contains_false.
Qed.

Lemma append_cancel_r (a b c : string) : a ++ c = b ++ c -> a = b.
Proof.
  revert b; induction a as [|x a IH]; intros [|y b] H.
  - reflexivity.
  - apply (f_equal String.length) in H.
    change ("" ++ c) with c in H.
    rewrite length_append in H. cbn [String.length] in H. lia.
  - apply (f_equal String.length) in H.
    change ("" ++ c) with c in H.
    rewrite length_append in H. cbn [String.length] in H. lia.
  - cbn [append] in H. injection H as -> H. f_equal. now apply IH.
Qed.

(** The scan computes the replacement of every occurrence ... *)
Lemma replaced_all_scan (x : ascii) (old new s r : string) :
  replaced_all (String x old) new s r -> scan (String x old) new 0 s = r.
Proof.
  induction 1 as [s Hn | s pre post r Hf _ IH].
  - now apply scan_no_occurrence.
  - rewrite (scan_first_occurrence _ _ _ _ _ _ Hf). now rewrite IH.
Qed.

(** ... and every string has one. *)
Lemma scan_replaced_all (x : ascii) (old new s : string) :
  replaced_all (String x old) new s (scan (String x old) new 0 s).
Proof.
  remember (String.length s) as n eqn:Hn.
  revert s Hn; induction n as [n IH] using lt_wf_ind; intros s ->.
  destruct (occurs_dec (String x old) s) as [Ho | Hno].
  - destruct (first_occurrence_exists _ _ Ho) as (pre & post & Hf).
    rewrite (scan_first_occurrence _ _ _ _ _ _ Hf).
    apply (replaced_first _ _ _ _ _ _ Hf).
    apply (IH (String.length post)); [|reflexivity].
    destruct Hf as [-> _]. rewrite !length_append. cbn [String.length]. lia.
  - rewrite scan_no_occurrence by exact Hno. now apply replaced_none.
Qed.

End StrFacts.


(** ** Facts about the monad *)

Lemma prepend_nil {W A} (r : Res W A) : prepend [] r = r.
Proof. now destruct r as [[t w] c]. Qed.

Lemma prepend_prepend {W A} (t t' : list event) (r : Res W A) :
  prepend t (prepend t' r) = prepend (t ++ t')%list r.
Proof. unfold prepend; cbn. now rewrite app_assoc. Qed.

Lemma trace_prepend {W A} (t : list event) (r : Res W A) :
  trace (prepend t r) = (t ++ trace r)%list.
Proof. reflexivity. Qed.

Lemma completion_prepend {W A} (t : list event) (r : Res W A) :
  completion (prepend t r) = completion r.
Proof. reflexivity. Qed.

Lemma bind_returned {W A B} (m : Py W A) (k : A -> Py W B) w t w' a :
  m w = (t, w', inl a) -> bind m k w = prepend t (k a w').
Proof. intros H. unfold bind. now rewrite H. Qed.

Lemma bind_raised {W A B} (m : Py W A) (k : A -> Py W B) w t w' e :
  m w = (t, w', inr e) -> bind m k w = (t, w', inr e).
Proof. intros H. unfold bind. now rewrite H. Qed.

Lemma commands_run_app (t t' : list event) :
  commands_run (t ++ t') = (commands_run t ++ commands_run t')%list.
Proof.
  induction t as [|[line | argv o | line] t IH]; cbn;
    [reflexivity | exact IH | now rewrite IH | exact IH].
Qed.

(** ** Facts about the driver *)

Section DriverFacts.

Variable E : Env.

Lemma print_encodable (line : string) (w : World E) :
  encodable E line = true -> print E line w = ([Print line], w, inl tt).
Proof. intros H. unfold print. now rewrite H. Qed.

Lemma print_not_encodable (line : string) (w : World E) :
  encodable E line = false ->
  print E line w = ([PrintRaised line], w, inr (UnicodeEncodeError line)).
Proof. intros H. unfold print. now rewrite H. Qed.

(** A [print] writes its line and returns, or writes nothing and raises. *)
Lemma print_cases (line : string) (w : World E) :
  (encodable E line = true /\ print E line w = ([Print line], w, inl tt)) \/
  (encodable E line = false /\
   print E line w = ([PrintRaised line], w, inr (UnicodeEncodeError line))).
Proof.
  destruct (encodable E line) eqn:H; [left | right]; split; try reflexivity.
  - now apply print_encodable.
  - now apply print_not_encodable.
Qed.

(** One call of [compile_shader], by the outcome of the compiler. *)
Lemma compile_shader_run (p : string) (w : World E) :
  compile_shader E p w =
  let cmd := command p in
  let w' := fst (spawn E w cmd) in
  match snd (spawn E w cmd) with
  | Exited rc => prepend [Run cmd (Exited rc)] (print E (report E p rc) w')
  | NotStarted detail => ([Run cmd (NotStarted detail)], w', inr (OSError detail))
  end.
Proof.
  unfold compile_shader, try_except, bind, subprocess_run, report.
  destruct (spawn E w (command p)) as [w' [rc | detail]]; cbn [fst snd].
  - destruct (Z.eqb rc 0); [|reflexivity].
    destruct (print_cases
                ("Compiled " ++ p ++ " to " ++ output_path p) w')
      as [[_ ->] | [_ ->]]; reflexivity.
  - reflexivity.
Qed.

(** One iteration of the loop. *)
Lemma visit_run (p : string) (w : World E) :
  visit E p w =
  if isfile E w p then compile_shader E p w
  else print E ("File not found: " ++ p) w.
Proof.
  unfold visit, bind, os_path_isfile.
  destruct (isfile E w p); apply prepend_nil.
Qed.

Lemma visit_visited (p : string) (w : World E) : visited E p w (visit E p w).
Proof.
  rewrite visit_run. destruct (isfile E w p) eqn:Hf; [|now constructor].
  rewrite compile_shader_run. cbv zeta.
  destruct (spawn E w (command p)) as [w' [rc | d]] eqn:Hs; cbn [fst snd];
    now constructor.
Qed.

Lemma for_each_cons (p : string) (rest : list string) (w : World E) :
  for_each E (p :: rest) w = bind (visit E p) (fun _ => for_each E rest) w.
Proof. reflexivity. Qed.

(** The loop, one step unfolded, by the way its first iteration went. *)
Lemma for_each_visited (p : string) (ps : list string) (w : World E) :
  exists r, visited E p w r /\
    for_each E (p :: ps) w =
    match completion r with
    | inl _ => prepend (trace r) (for_each E ps (world r))
    | inr _ => r
    end.
Proof.
  exists (visit E p w). split; [apply visit_visited|].
  rewrite for_each_cons. unfold bind.
  now destruct (visit E p w) as [[t w'] [[]|e]].
Qed.

(** The same, as two cases. *)
Lemma for_each_step (p : string) (ps : list string) (w : World E) :
  exists r, visited E p w r /\
    ((completion r = inl tt /\
      for_each E (p :: ps) w = prepend (trace r) (for_each E ps (world r))) \/
     (exists e, completion r = inr e /\ for_each E (p :: ps) w = r)).
Proof.
  destruct (for_each_visited p ps w) as (r & Hr & Heq).
  exists r. split; [exact Hr|]. rewrite Heq.
  destruct r as [[t w'] [[]|e]]; [left | right]; [now split | now exists e].
Qed.

(** The loop over [xs ++ ys] is the loop over [xs], then, unless that
    raised, the loop over [ys] in the world it left. *)
Lemma for_each_app (xs ys : list string) (w : World E) :
  for_each E (xs ++ ys) w = bind (for_each E xs) (fun _ => for_each E ys) w.
Proof.
  revert w; induction xs as [|x xs IH]; intros w.
  - cbn [app]. unfold bind; cbn. now rewrite prepend_nil.
  - cbn [app]. rewrite for_each_cons.
    destruct (visit E x w) as [[t w'] [[]|e]] eqn:Hv.
    + rewrite (bind_returned _ _ _ _ _ _ Hv), IH.
      destruct (for_each E xs w') as [[t1 w1] [[]|e1]] eqn:Hxs.
      * assert (Hc : for_each E (x :: xs) w = ((t ++ t1)%list, w1, inl tt))
          by (rewrite for_each_cons, (bind_returned _ _ _ _ _ _ Hv), Hxs;
              reflexivity).
        rewrite (bind_returned _ _ _ _ _ _ Hxs), prepend_prepend.
        now rewrite (bind_returned _ _ _ _ _ _ Hc).
      * assert (Hc : for_each E (x :: xs) w = ((t ++ t1)%list, w1, inr e1))
          by (rewrite for_each_cons, (bind_returned _ _ _ _ _ _ Hv), Hxs;
              reflexivity).
        rewrite (bind_raised _ _ _ _ _ _ Hxs).
        now rewrite (bind_raised _ _ _ _ _ _ Hc).
    + assert (Hc : for_each E (x :: xs) w = (t, w', inr e))
        by (rewrite for_each_cons; now apply bind_raised).
      rewrite (bind_raised _ _ _ _ _ _ Hv).
      now rewrite (bind_raised _ _ _ _ _ _ Hc).
Qed.

(** With at least one path argument the script is the loop. *)
Lemma main_run (argv : list string) (w : World E) :
  2 <= List.length argv -> main E argv w = for_each E (tl argv) w.
Proof.
  intros H. unfold main.
  destruct (Nat.ltb_spec (List.length argv) 2) as [Hlt | _]; [lia|].
  unfold bind at 1; cbn. apply prepend_nil.
Qed.

Lemma main_usage (argv : list string) (w : World E) :
  List.length argv < 2 ->
  main E argv w = ([Print usage], w, inr (SystemExit 1)).
Proof.
  intros H. unfold main.
  destruct (Nat.ltb_spec (List.length argv) 2) as [_ | Hge]; [|lia].
  unfold bind.
  now rewrite (print_encodable usage w (encodable_ascii E usage eq_refl)).
Qed.

(** The script is the usage error or the loop. *)
Lemma main_cases (argv : list string) (w : World E) :
  (List.length argv < 2 /\ tl argv = [] /\
   main E argv w = ([Print usage], w, inr (SystemExit 1))) \/
  (2 <= List.length argv /\ main E argv w = for_each E (tl argv) w).
Proof.
  destruct (Nat.lt_ge_cases (List.length argv) 2) as [H | H].
  - left. split; [exact H|]. split; [|now apply main_usage].
    destruct argv as [|a [|b argv]]; try reflexivity. cbn in H. lia.
  - right. split; [exact H | now apply main_run].
Qed.

(** The loop reaches [p] after [pre]: what the whole run is then. *)
Lemma main_reaches (prog : string) (pre : list string) (p : string)
      (post : list string) (w w1 : World E) (t1 : list event) :
  for_each E pre w = (t1, w1, inl tt) ->
  main E (prog :: pre ++ p :: post) w =
  prepend t1 (bind (visit E p) (fun _ => for_each E post) w1).
Proof.
  intros Hpre. rewrite main_run.
  - cbn [tl]. rewrite for_each_app.
    rewrite (bind_returned _ _ _ _ _ _ Hpre). now rewrite for_each_cons.
  - cbn [List.length]. rewrite List.length_app. cbn [List.length]. lia.
Qed.

(** An event that ends the run: a compiler that could not be started or a
    line that could not be printed. *)
Lemma for_each_completion (ps : list string) (w : World E) :
  (completion (for_each E ps w) = inl tt /\
   (forall cmd d, ~ In (Run cmd (NotStarted d)) (trace (for_each E ps w))) /\
   (forall line, ~ In (PrintRaised line) (trace (for_each E ps w)))) \/
  (exists cmd d, completion (for_each E ps w) = inr (OSError d) /\
                 In (Run cmd (NotStarted d)) (trace (for_each E ps w))) \/
  (exists line, completion (for_each E ps w) = inr (UnicodeEncodeError line) /\
                encodable E line = false /\
                In (PrintRaised line) (trace (for_each E ps w))).
Proof.
  revert w; induction ps as [|p ps IH]; intros w.
  - left. split; [reflexivity|]. split; intros; intros [].
  - destruct (for_each_visited p ps w) as (r & Hr & ->).
    assert (Hgo : forall t w',
      (forall cmd d, ~ In (Run cmd (NotStarted d)) t) ->
      (forall line, ~ In (PrintRaised line) t) ->
      let r' := prepend t (for_each E ps w') in
      (completion r' = inl tt /\
       (forall cmd d, ~ In (Run cmd (NotStarted d)) (trace r')) /\
       (forall line, ~ In (PrintRaised line) (trace r'))) \/
      (exists cmd d, completion r' = inr (OSError d) /\
                     In (Run cmd (NotStarted d)) (trace r')) \/
      (exists line, completion r' = inr (UnicodeEncodeError line) /\
                    encodable E line = false /\
                    In (PrintRaised line) (trace r'))).
    { intros t w' Hn Hp r'. subst r'.
      cbn [prepend completion trace fst snd].
      destruct (IH w') as [(Hc & Hn' & Hp') | [(cmd & d & Hc & Hin)
                                              | (line & Hc & He & Hin)]].
      - left. split; [exact Hc|]. split.
        + intros cmd d Hin. apply in_app_or in Hin as [Hin | Hin];
            [exact (Hn _ _ Hin) | exact (Hn' _ _ Hin)].
        + intros line Hin. apply in_app_or in Hin as [Hin | Hin];
            [exact (Hp _ Hin) | exact (Hp' _ Hin)].
      - right. left. exists cmd, d. split; [exact Hc|].
        apply in_or_app. now right.
      - right. right. exists line. split; [exact Hc|]. split; [exact He|].
        apply in_or_app. now right. }
    destruct Hr as [Hf | w' rc Hf Hs | w' d Hf Hs].
    + destruct (print_cases ("File not found: " ++ p) w)
        as [[He ->] | [He ->]].
      * refine (Hgo [Print ("File not found: " ++ p)] w _ _);
          intros; intros [H | []]; discriminate H.
      * right. right. eexists. split; [reflexivity|].
        split; [exact He | now left].
    + destruct (print_cases (report E p rc) w') as [[He ->] | [He ->]].
      * refine (Hgo [Run (command p) (Exited rc); Print (report E p rc)] w' _ _);
          intros; intros [H | [H | []]]; discriminate H.
      * right. right. eexists. split; [reflexivity|].
        split; [exact He | right; now left].
    + right. left. exists (command p), d. split; [reflexivity | now left].
Qed.

End DriverFacts.

(** ** The derived output path *)

Lemma output_path_no_occurrence (p : string) :
  ~ Str.occurs "shaders" p -> output_path p = p ++ ".spv".
Proof.
  intros H. unfold output_path, Str.replace.
  now rewrite StrFacts.scan_no_occurrence.
Qed.

Lemma output_path_first_occurrence (p pre post : string) :
  Str.first_occurrence "shaders" p pre post ->
  output_path p = pre ++ "bin" ++ output_path post.
Proof.
  intros H. unfold output_path, Str.replace.
  rewrite (StrFacts.scan_first_occurrence _ _ _ _ _ _ H).
  now rewrite !StrFacts.append_assoc.
Qed.

(** C1, as the specification words it, fails: a path with two occurrences
    of "shaders" has both replaced, where replacing the first occurrence
    only would keep the second. *)
Lemma first_occurrence_only_fails :
  output_path "shaders/x/shaders/a.vert" = "bin/x/bin/a.vert.spv" /\
  spec_output_path "shaders/x/shaders/a.vert" = "bin/x/shaders/a.vert.spv" /\
  output_path "shaders/x/shaders/a.vert" <>
  spec_output_path "shaders/x/shaders/a.vert".
Proof. repeat split. discriminate. Qed.

(** C1 (amended): for every input path, the derived output path is the
    input path with EVERY occurrence of "shaders" replaced by "bin" (the
    occurrences found from the left, each search starting where the
    previous occurrence ended), followed by ".spv".  The replacement [r]
    is determined by the path: [r] is such a replacement exactly when the
    output path is [r ++ ".spv"]. *)
Theorem output_path_replaces_every_occurrence (p r : string) :
  Str.replaced_all "shaders" "bin" p r <-> output_path p = r ++ ".spv".
Proof.
  unfold output_path, Str.replace. split.
  - intros H. now rewrite (StrFacts.replaced_all_scan _ _ _ _ _ H).
  - intros H. apply StrFacts.append_cancel_r in H. subst r.
    apply StrFacts.scan_replaced_all.
Qed.

Lemma output_path_replaces_every_occurrence_witness :
  Str.replaced_all "shaders" "bin"
    "shaders/x/shaders/a.vert" "bin/x/bin/a.vert".
Proof.
  apply (proj2 (output_path_replaces_every_occurrence
                  "shaders/x/shaders/a.vert" "bin/x/bin/a.vert")).
  reflexivity.
Defined.

(** C9: the replacement is a plain substring replacement, blind to path
    separators and to the boundaries of path components:
    "myshadersdir/a.vert" becomes "mybindir/a.vert.spv"; more generally
    "myshaders" followed by anything at all has its "shaders" replaced;
    and whatever surrounds an occurrence of "shaders" ([pre] and [post]
    are arbitrary), the leftmost occurrence in the path is replaced by
    "bin". *)
Theorem substring_replaced_inside_component :
  output_path "myshadersdir/a.vert" = "mybindir/a.vert.spv" /\
  (forall post : string,
     output_path ("my" ++ "shaders" ++ post) = "my" ++ "bin" ++ output_path post) /\
  forall pre post : string,
    exists pre' post',
      Str.first_occurrence "shaders" (pre ++ "shaders" ++ post) pre' post' /\
      output_path (pre ++ "shaders" ++ post) =
      pre' ++ "bin" ++ output_path post'.
Proof.
  split; [reflexivity|]. split.
  - intros post. apply output_path_first_occurrence.
    split; [reflexivity|].
    intros [|c1 [|c2 a]] b H; cbn in H; try discriminate H.
    cbn [String.length]. lia.
  - intros pre post.
    destruct (StrFacts.first_occurrence_exists "shaders"
                (pre ++ "shaders" ++ post)) as (pre' & post' & Hf).
    + now exists pre, post.
    + exists pre', post'. split; [exact Hf|].
      now apply output_path_first_occurrence.
Qed.

(** C8: the output path handed to the compiler is a function of the input
    path alone.  In any two environments and any two worlds (file-system
    states, whatever ran before), compiling the same path runs the same
    command, whose output argument is [output_path] of the path. *)
Theorem output_path_independent_of_environment
        (E1 E2 : Env) (w1 : World E1) (w2 : World E2) (p : string) :
  commands_run (trace (compile_shader E1 p w1)) =
    [["glslc"; p; "-o"; output_path p]] /\
  commands_run (trace (compile_shader E2 p w2)) =
    commands_run (trace (compile_shader E1 p w1)).
Proof.
  assert (H : forall E (w : World E),
             commands_run (trace (compile_shader E p w)) =
             [["glslc"; p; "-o"; output_path p]]).
  { intros E w. rewrite compile_shader_run. cbv zeta.
    destruct (snd (spawn E w (command p))) as [rc | d]; [|reflexivity].
    destruct (print_cases E (report E p rc) (fst (spawn E w (command p))))
      as [[_ ->] | [_ ->]]; reflexivity. }
  now rewrite !H.
Qed.




(** ** The run of the driver *)

(** C3: with no path argument the driver prints the usage message, exits
    with status 1 and runs no command; the world is left as it was. *)
Theorem no_path_argument_usage_exit_1
        (E : Env) (argv : list string) (w : World E) :
  List.length argv < 2 ->
  trace (main E argv w) =
    [Print "Usage: compile_shaders.py <shader1> <shader2> ..."] /\
  exit_status (main E argv w) = 1%Z /\
  commands_run (trace (main E argv w)) = [] /\
  world (main E argv w) = w.
Proof. intros H. rewrite (main_usage E argv w H). now repeat split. Qed.

Lemma no_path_argument_usage_exit_1_witness :
  trace (Demo.run ["compile_shaders.py"]) =
    [Print "Usage: compile_shaders.py <shader1> <shader2> ..."] /\
  exit_status (Demo.run ["compile_shaders.py"]) = 1%Z /\
  commands_run (trace (Demo.run ["compile_shaders.py"])) = [] /\
  world (Demo.run ["compile_shaders.py"]) = Demo.disk.
Proof.
  apply (no_path_argument_usage_exit_1 Demo.env ["compile_shaders.py"] Demo.disk).
  simpl. lia.
Defined.

(** C4, as the specification words it, fails: a path that is not a
    regular file gets no notice when the compiler of an earlier path could
    not be started, since the run has ended before the loop comes to it;
    and it gets none either when its name holds a byte that standard
    output cannot encode, since [print] raises. *)
Lemma missing_path_after_failed_start_unreported :
  let r := Demo.run_without_compiler
             ["compile_shaders.py"; "shaders/a.vert"; "nowhere.vert"] in
  let r' := Demo.run ["compile_shaders.py"; Demo.raw_name] in
  (isfile Demo.env_without_compiler Demo.disk "nowhere.vert" = false /\
   printed (trace r) = [] /\
   ~ In (Print "File not found: nowhere.vert") (trace r)) /\
  (isfile Demo.env Demo.disk Demo.raw_name = false /\
   printed (trace r') = [] /\
   exit_status r' = 1%Z).
Proof.
  split.
  - split; [reflexivity|]. split; [reflexivity|].
    intros [H | []]. discriminate H.
  - now repeat split.
Qed.

(** C4 (amended): when the loop comes to a path that is not a regular
    file (the paths [pre] before it were handled without an uncaught
    exception, leaving the trace [t1] and the world [w1]), it runs no
    command for that path.  If standard output can encode the line
    "File not found: " followed by the path, that line is printed and the
    loop goes on with the paths after it in the same world; if not, [print]
    raises, nothing is written and the run ends there. *)
Theorem missing_file_reported_and_skipped
        (E : Env) (prog : string) (pre : list string) (p : string)
        (post : list string) (w w1 : World E) (t1 : list event) :
  for_each E pre w = (t1, w1, inl tt) ->
  isfile E w1 p = false ->
  main E (prog :: pre ++ p :: post) w =
  if encodable E ("File not found: " ++ p)
  then prepend (t1 ++ [Print ("File not found: " ++ p)]) (for_each E post w1)
  else ((t1 ++ [PrintRaised ("File not found: " ++ p)])%list, w1,
        inr (UnicodeEncodeError ("File not found: " ++ p))).
Proof.
  intros Hpre Hp. rewrite (main_reaches E prog pre p post w w1 t1 Hpre).
  assert (Hv : visit E p w1 = print E ("File not found: " ++ p) w1)
    by (rewrite visit_run; now rewrite Hp).
  destruct (print_cases E ("File not found: " ++ p) w1) as [[He Hpr] | [He Hpr]];
    rewrite He; rewrite Hpr in Hv.
  - rewrite (bind_returned _ _ _ _ _ _ Hv). apply prepend_prepend.
  - now rewrite (bind_raised _ _ _ _ _ _ Hv).
Qed.

Lemma missing_file_reported_and_skipped_witness :
  main Demo.env
    ["compile_shaders.py"; "shaders/a.vert"; "shaders/missing.vert";
     "shaders/b.frag"] Demo.disk =
  prepend
    ([Run ["glslc"; "shaders/a.vert"; "-o"; "bin/a.vert.spv"] (Exited 0);
      Print "Compiled shaders/a.vert to bin/a.vert.spv"]
     ++ [Print "File not found: shaders/missing.vert"])
    (for_each Demo.env ["shaders/b.frag"] ("bin/a.vert.spv" :: Demo.disk)).
Proof.
  apply (missing_file_reported_and_skipped Demo.env "compile_shaders.py"
           ["shaders/a.vert"] "shaders/missing.vert" ["shaders/b.frag"]
           Demo.disk ("bin/a.vert.spv" :: Demo.disk)).
  - reflexivity.
  - reflexivity.
Defined.

(** C7, as the specification words it, fails: with a compiler that cannot
    be started, the run ends at the first existing path, and the second
    existing path gets no subprocess at all. *)
Lemma existing_path_after_failed_start_not_compiled :
  let r := Demo.run_without_compiler
             ["compile_shaders.py"; "shaders/a.vert"; "shaders/b.frag"] in
  isfile Demo.env_without_compiler Demo.disk "shaders/a.vert" = true /\
  isfile Demo.env_without_compiler Demo.disk "shaders/b.frag" = true /\
  commands_run (trace r) = [command "shaders/a.vert"] /\
  ~ In (command "shaders/b.frag") (commands_run (trace r)).
Proof.
  split; [reflexivity|]. split; [reflexivity|]. split; [reflexivity|].
  intros [H | []]. discriminate H.
Qed.

(** C7 (amended): when the loop comes to a path that is a regular file
    (the paths [pre] before it were handled without an uncaught exception,
    leaving the trace [t1] and the world [w1]), it calls the compiler
    exactly once for it, with [glslc; path; -o; output_path path], after
    every command of the earlier paths and before every command of the
    later ones.  The later paths are handled, in the world that the
    finished compiler left, when the compiler could be started and the
    line reporting its result could be printed; otherwise the run ends
    and no further command is run. *)
Theorem existing_file_compiled_once_in_order
        (E : Env) (prog : string) (pre : list string) (p : string)
        (post : list string) (w w1 : World E) (t1 : list event) :
  for_each E pre w = (t1, w1, inl tt) ->
  isfile E w1 p = true ->
  commands_run (trace (main E (prog :: pre ++ p :: post) w)) =
  (commands_run t1 ++
   ["glslc"; p; "-o"; output_path p] ::
   match snd (spawn E w1 (command p)) with
   | Exited rc =>
       if encodable E (report E p rc)
       then commands_run
              (trace (for_each E post (fst (spawn E w1 (command p)))))
       else []
   | NotStarted _ => []
   end)%list.
Proof.
  intros Hpre Hp. rewrite (main_reaches E prog pre p post w w1 t1 Hpre).
  unfold bind. rewrite visit_run, Hp, compile_shader_run. cbv zeta.
  destruct (snd (spawn E w1 (command p))) as [rc | d].
  - destruct (print_cases E (report E p rc) (fst (spawn E w1 (command p))))
      as [[He ->] | [He ->]]; rewrite He;
      unfold prepend, trace; cbn [fst snd];
      rewrite !commands_run_app; reflexivity.
  - unfold prepend, trace; cbn [fst snd]. now rewrite commands_run_app.
Qed.

Lemma existing_file_compiled_once_in_order_witness :
  commands_run
    (trace (main Demo.env
              ["compile_shaders.py"; "shaders/bad.vert"; "shaders/a.vert";
               "shaders/b.frag"] Demo.disk)) =
  [["glslc"; "shaders/bad.vert"; "-o"; "bin/bad.vert.spv"];
   ["glslc"; "shaders/a.vert"; "-o"; "bin/a.vert.spv"];
   ["glslc"; "shaders/b.frag"; "-o"; "bin/b.frag.spv"]].
Proof.
  apply (existing_file_compiled_once_in_order Demo.env "compile_shaders.py"
           ["shaders/bad.vert"] "shaders/a.vert" ["shaders/b.frag"]
           Demo.disk Demo.disk
           [Run ["glslc"; "shaders/bad.vert"; "-o"; "bin/bad.vert.spv"]
                (Exited 1);
            Print "Error compiling shaders/bad.vert: Command returned non-zero exit status."]).
  - reflexivity.
  - reflexivity.
Defined.

(** C2, as the specification words it, fails: with a compiler that cannot
    be started, the driver prints nothing for the existing first path,
    raises the operating system's error and never comes to the second. *)
Lemma unstartable_compiler_not_reported :
  let r := Demo.run_without_compiler
             ["compile_shaders.py"; "shaders/a.vert"; "shaders/b.frag"] in
  isfile Demo.env_without_compiler Demo.disk "shaders/a.vert" = true /\
  isfile Demo.env_without_compiler Demo.disk "shaders/b.frag" = true /\
  printed (trace r) = [] /\
  commands_run (trace r) = [command "shaders/a.vert"] /\
  completion r = inr (OSError "[Errno 2] No such file or directory: 'glslc'").
Proof. now repeat split. Qed.

(** C2 (amended): when the loop comes to an existing path and the compiler
    run for it returns a non-zero exit status, the driver builds the line
    "Error compiling <path>: " followed by the text of the error.  If
    standard output can encode that line, it is printed and the loop goes
    on with the remaining paths, in the world the compiler left; if not,
    [print] raises inside the handler, nothing is written and the run ends
    there. *)
Theorem nonzero_exit_reported_and_continues
        (E : Env) (prog : string) (pre : list string) (p : string)
        (post : list string) (w w1 w2 : World E) (t1 : list event) (rc : Z) :
  for_each E pre w = (t1, w1, inl tt) ->
  isfile E w1 p = true ->
  spawn E w1 (command p) = (w2, Exited rc) ->
  rc <> 0%Z ->
  let line := "Error compiling " ++ p ++ ": "
              ++ str_CalledProcessError E rc (command p) in
  main E (prog :: pre ++ p :: post) w =
  if encodable E line
  then prepend (t1 ++ [Run (command p) (Exited rc); Print line])
               (for_each E post w2)
  else ((t1 ++ [Run (command p) (Exited rc); PrintRaised line])%list, w2,
        inr (UnicodeEncodeError line)).
Proof.
  intros Hpre Hp Hs Hrc line.
  rewrite (main_reaches E prog pre p post w w1 t1 Hpre).
  assert (Hv : visit E p w1 =
               prepend [Run (command p) (Exited rc)] (print E line w2)).
  { rewrite visit_run, Hp, compile_shader_run. cbv zeta. rewrite Hs.
    cbn [fst snd]. unfold report. apply Z.eqb_neq in Hrc. now rewrite Hrc. }
  destruct (print_cases E line w2) as [[He Hpr] | [He Hpr]];
    rewrite He; rewrite Hpr in Hv.
  - rewrite (bind_returned _ _ _ _ _ _ Hv). apply prepend_prepend.
  - now rewrite (bind_raised _ _ _ _ _ _ Hv).
Qed.

Lemma nonzero_exit_reported_and_continues_witness :
  main Demo.env
    ["compile_shaders.py"; "shaders/bad.vert"; "shaders/b.frag"] Demo.disk =
  prepend
    ([] ++ [Run (command "shaders/bad.vert") (Exited 1);
            Print "Error compiling shaders/bad.vert: Command returned non-zero exit status."])
    (for_each Demo.env ["shaders/b.frag"] Demo.disk).
Proof.
  apply (nonzero_exit_reported_and_continues Demo.env "compile_shaders.py"
           [] "shaders/bad.vert" ["shaders/b.frag"] Demo.disk Demo.disk
           Demo.disk [] 1%Z).
  - reflexivity.
  - reflexivity.
  - reflexivity.
  - discriminate.
Defined.

(** C10: when the compiler for an existing path cannot be started, the
    operating system's error is not caught: the run ends there with that
    exception and exit status 1, nothing is printed for the path, and the
    paths after it are not handled. *)
Theorem startup_error_aborts_run
        (E : Env) (prog : string) (pre : list string) (p : string)
        (post : list string) (w w1 w2 : World E) (t1 : list event)
        (detail : string) :
  for_each E pre w = (t1, w1, inl tt) ->
  isfile E w1 p = true ->
  spawn E w1 (command p) = (w2, NotStarted detail) ->
  main E (prog :: pre ++ p :: post) w =
    ((t1 ++ [Run (command p) (NotStarted detail)])%list, w2,
     inr (OSError detail)) /\
  exit_status (main E (prog :: pre ++ p :: post) w) = 1%Z.
Proof.
  intros Hpre Hp Hs.
  assert (Hm : main E (prog :: pre ++ p :: post) w =
               ((t1 ++ [Run (command p) (NotStarted detail)])%list, w2,
                inr (OSError detail))).
  { rewrite (main_reaches E prog pre p post w w1 t1 Hpre).
    assert (Hv : visit E p w1 =
                 ([Run (command p) (NotStarted detail)], w2,
                  inr (OSError detail)))
      by (rewrite visit_run, Hp, compile_shader_run; cbv zeta; now rewrite Hs).
    now rewrite (bind_raised _ _ _ _ _ _ Hv). }
  split; [exact Hm | now rewrite Hm].
Qed.

Lemma startup_error_aborts_run_witness :
  main Demo.env_without_compiler
    ["compile_shaders.py"; "shaders/missing.vert"; "shaders/a.vert";
     "shaders/b.frag"] Demo.disk =
    (([Print "File not found: shaders/missing.vert"] ++
      [Run (command "shaders/a.vert")
           (NotStarted "[Errno 2] No such file or directory: 'glslc'")])%list,
     Demo.disk,
     inr (OSError "[Errno 2] No such file or directory: 'glslc'")) /\
  exit_status
    (main Demo.env_without_compiler
       ["compile_shaders.py"; "shaders/missing.vert"; "shaders/a.vert";
        "shaders/b.frag"] Demo.disk) = 1%Z.
Proof.
  apply (startup_error_aborts_run Demo.env_without_compiler
           "compile_shaders.py" ["shaders/missing.vert"] "shaders/a.vert"
           ["shaders/b.frag"] Demo.disk Demo.disk Demo.disk).
  - reflexivity.
  - reflexivity.
  - reflexivity.
Defined.

(** C6, as the specification words it, fails: with one path argument, an
    existing file, and a compiler that cannot be started, the exit status
    is 1. *)
Lemma exit_status_1_with_path_argument :
  2 <= List.length ["compile_shaders.py"; "shaders/a.vert"] /\
  isfile Demo.env_without_compiler Demo.disk "shaders/a.vert" = true /\
  exit_status
    (Demo.run_without_compiler ["compile_shaders.py"; "shaders/a.vert"]) = 1%Z /\
  exit_status
    (Demo.run_without_compiler ["compile_shaders.py"; "shaders/a.vert"]) <> 0%Z.
Proof.
  split; [simpl; lia|]. split; [reflexivity|]. split; [reflexivity|].
  intros H. vm_compute in H. discriminate H.
Qed.

(** C6 (amended): whenever at least one path argument is supplied, the
    exit status is 0 exactly when no compiler run failed to start and no
    line failed to be printed, however many compiler runs returned a
    non-zero status and however many paths were missing; in the other
    case it is 1. *)
Theorem exit_status_0_unless_startup_error
        (E : Env) (argv : list string) (w : World E) :
  2 <= List.length argv ->
  (exit_status (main E argv w) = 0%Z <->
   (forall cmd detail,
      ~ In (Run cmd (NotStarted detail)) (trace (main E argv w))) /\
   (forall line, ~ In (PrintRaised line) (trace (main E argv w))))
  /\ (exit_status (main E argv w) = 0%Z \/ exit_status (main E argv w) = 1%Z).
Proof.
  intros H. rewrite (main_run E argv w H). unfold exit_status.
  destruct (for_each_completion E (tl argv) w)
    as [(Hc & Hn & Hp) | [(cmd & d & Hc & Hin) | (line & Hc & _ & Hin)]];
    rewrite Hc.
  - split; [|now left]. split; [intros _; now split | reflexivity].
  - split; [|now right]. split; [discriminate|].
    intros [Hn _]. now destruct (Hn _ _ Hin).
  - split; [|now right]. split; [discriminate|].
    intros [_ Hp]. now destruct (Hp _ Hin).
Qed.

Lemma exit_status_0_unless_startup_error_witness :
  exit_status
    (main Demo.env
       ["compile_shaders.py"; "shaders/bad.vert"; "shaders/missing.vert"]
       Demo.disk) = 0%Z.
Proof.
  apply (proj1 (exit_status_0_unless_startup_error Demo.env
           ["compile_shaders.py"; "shaders/bad.vert"; "shaders/missing.vert"]
           Demo.disk ltac:(simpl; lia))).
  split.
  - intros cmd detail Hin. simpl in Hin.
    destruct Hin as [Hin | [Hin | [Hin | []]]]; discriminate.
  - intros line Hin. simpl in Hin.
    destruct Hin as [Hin | [Hin | [Hin | []]]]; discriminate.
Defined.

(** ** More about the derived output path *)

Module PathFacts.
Import Str StrFacts.

Lemma append_nil_r (a : string) : a ++ "" = a.
Proof. induction a as [|x a IH]; cbn; [reflexivity | now rewrite IH]. Qed.

(** Two ways of cutting the same string: one cut is inside the other's
    first part or inside its second part. *)
Lemma append_split (a b c d : string) :
  a ++ b = c ++ d ->
  (exists m, c = a ++ m /\ b = m ++ d) \/ (exists m, a = c ++ m /\ d = m ++ b).
Proof.
  revert c; induction a as [|x a IH]; intros c H.
  - left. now exists c.
  - destruct c as [|y c].
    + right. now exists (String x a).
    + cbn [append] in H. injection H as -> H.
      destruct (IH _ H) as [(m & -> & ->) | (m & -> & ->)];
        [left | right]; now exists m.
Qed.

(** Walk through a known string [s] in [H : s = m ++ String c rest], one
    character at a time, until the character [c] is found not to be there. *)
Ltac walk H m :=
  repeat (destruct m as [|? m]; cbn [append] in H;
          [try discriminate H | first [discriminate H | injection H as ? H]]).

(** "bin" between two strings without the pattern creates no occurrence. *)
Lemma bin_joins_no_occurrence (pre r : string) :
  ~ occurs "shaders" pre -> ~ occurs "shaders" r ->
  ~ occurs "shaders" (pre ++ "bin" ++ r).
Proof.
  intros Hp Hr (x & y & H).
  destruct (append_split _ _ _ _ H) as [(m & -> & H1) | (m & -> & H1)].
  - destruct (append_split _ _ _ _ H1) as [(m' & _ & H2) | (m' & Hm & H2)].
    + apply Hr. now exists m', y.
    + destruct m' as [|c m'].
      * apply Hr. exists "", y. exact (eq_sym H2).
      * cbn [append] in H2. injection H2 as <- _. walk Hm m.
  - destruct (append_split _ _ _ _ H1) as [(m' & -> & _) | (m' & Hm & H2)].
    + apply Hp. now exists x, m'.
    + destruct m' as [|c m'].
      * rewrite append_nil_r in Hm. apply Hp. exists x, "". now rewrite <- Hm.
      * cbn [append] in H2. injection H2 as <- _. walk Hm m.
Qed.

(** Appending ".spv" creates no occurrence either. *)
Lemma spv_adds_no_occurrence (r : string) :
  ~ occurs "shaders" r -> ~ occurs "shaders" (r ++ ".spv").
Proof.
  intros Hr (x & y & H).
  destruct (append_split _ _ _ _ H) as [(m & -> & H1) | (m & -> & H1)].
  - apply (f_equal String.length) in H1.
    rewrite !length_append in H1. cbn [String.length] in H1. lia.
  - destruct (append_split _ _ _ _ H1) as [(m' & -> & _) | (m' & Hm & H2)].
    + apply Hr. now exists x, m'.
    + destruct m' as [|c m'].
      * rewrite append_nil_r in Hm. apply Hr. exists x, "". now rewrite <- Hm.
      * cbn [append] in H2. injection H2 as <- _. walk Hm m.
Qed.

(** What precedes the leftmost occurrence holds no occurrence. *)
Lemma before_first_occurrence (x : ascii) (old s pre post : string) :
  first_occurrence (String x old) s pre post -> ~ occurs (String x old) pre.
Proof.
  intros [-> Hmin] (a & b & ->).
  specialize (Hmin a (b ++ String x old ++ post)).
  rewrite !append_assoc in Hmin. specialize (Hmin eq_refl).
  rewrite !length_append in Hmin. cbn [String.length] in Hmin. lia.
Qed.

Lemma replaced_all_free (s r : string) :
  replaced_all "shaders" "bin" s r -> ~ occurs "shaders" r.
Proof.
  induction 1 as [s Hn | s pre post r Hf _ IH]; [exact Hn|].
  apply bin_joins_no_occurrence; [|exact IH].
  exact (before_first_occurrence _ _ _ _ _ Hf).
Qed.

Lemma output_path_free (p : string) : ~ occurs "shaders" (output_path p).
Proof.
  unfold output_path, Str.replace. apply spv_adds_no_occurrence.
  apply (replaced_all_free p). apply scan_replaced_all.
Qed.

End PathFacts.

(** X1: the derived output path never contains the substring "shaders",
    whatever the input path is: every occurrence is gone, and neither the
    inserted "bin" nor the appended ".spv" makes a new one. *)
Theorem output_path_has_no_shaders (p : string) :
  Str.contains "shaders" (output_path p) = false /\
  ~ Str.occurs "shaders" (output_path p).
Proof.
  split; [|apply PathFacts.output_path_free].
  destruct (Str.contains "shaders" (output_path p)) eqn:E; [|reflexivity].
  apply StrFacts.contains_spec in E.
  now destruct (PathFacts.output_path_free p E).
Qed.

(** X2: the output path differs from the input path, so the compiler is
    never told to write over the file it reads. *)
Theorem output_path_is_not_the_input (p : string) :
  output_path p <> p /\
  nth 1 (command p) "" <> nth 3 (command p) "".
Proof.
  assert (H : output_path p <> p).
  { intros H. destruct (StrFacts.occurs_dec "shaders" p) as [Ho | Hn].
    - rewrite <- H in Ho. exact (PathFacts.output_path_free p Ho).
    - rewrite (output_path_no_occurrence p Hn) in H.
      apply (f_equal String.length) in H.
      rewrite StrFacts.length_append in H. cbn [String.length] in H. lia. }
  split; [exact H|]. cbn [command nth]. congruence.
Qed.

(** X3: the derivation is not injective: a path that starts with "bin" and
    the same path starting with "shaders" instead get the same output
    path. *)
Theorem output_path_collides (post : string) :
  "bin" ++ post <> "shaders" ++ post /\
  output_path ("bin" ++ post) = output_path ("shaders" ++ post).
Proof. split; [discriminate | reflexivity]. Qed.

(** ** More about the run of the driver *)

Section RunFacts.

Variable E : Env.

Lemma printed_app (t t' : list event) :
  printed (t ++ t') = (printed t ++ printed t')%list.
Proof.
  induction t as [|[line | argv o | line] t IH]; cbn;
    [reflexivity | now rewrite IH | exact IH | exact IH].
Qed.

(** What one iteration does, whichever way it goes: the command it runs,
    the world it leaves, and the single line of an iteration that
    returns. *)
Lemma visited_summary (p : string) (w : World E) (r : Res (World E) unit) :
  visited E p w r ->
  commands_run (trace r) = (if isfile E w p then [command p] else []) /\
  world r = (if isfile E w p then fst (spawn E w (command p)) else w) /\
  (completion r = inl tt -> List.length (printed (trace r)) = 1).
Proof.
  intros [Hf | w' rc Hf Hs | w' d Hf Hs]; rewrite Hf.
  - destruct (print_cases E ("File not found: " ++ p) w)
      as [[_ ->] | [_ ->]]; repeat split; discriminate.
  - rewrite Hs.
    destruct (print_cases E (report E p rc) w') as [[_ ->] | [_ ->]];
      repeat split; discriminate.
  - rewrite Hs. repeat split. discriminate.
Qed.

Lemma for_each_commands (ps : list string) (w : World E) :
  Forall (fun cmd => exists p, In p ps /\ cmd = command p)
         (commands_run (trace (for_each E ps w))) /\
  List.length (commands_run (trace (for_each E ps w))) <= List.length ps.
Proof.
  revert w; induction ps as [|p ps IH]; intros w.
  - split; [constructor | reflexivity].
  - assert (Hmono : forall l,
              Forall (fun cmd => exists q, In q ps /\ cmd = command q) l ->
              Forall (fun cmd => exists q, In q (p :: ps) /\ cmd = command q) l).
    { intros l. apply Forall_impl. intros cmd (q & Hq & ->).
      exists q. split; [now right | reflexivity]. }
    assert (Hhere : Forall
              (fun cmd => exists q, In q (p :: ps) /\ cmd = command q)
              (if isfile E w p then [command p] else []) /\
            List.length (if isfile E w p then [command p] else []) <= 1).
    { destruct (isfile E w p); split; cbn; try lia; constructor;
        [|constructor]. exists p. split; [now left | reflexivity]. }
    destruct Hhere as [HF1 HL1].
    destruct (for_each_step E p ps w) as (r & Hr & [[Hc ->] | (e & Hc & ->)]);
      destruct (visited_summary p w r Hr) as (Hcmd & _ & _).
    + destruct (IH (world r)) as [HF HL].
      rewrite trace_prepend, commands_run_app, Hcmd, List.length_app. split.
      * apply Forall_app. split; [exact HF1 | now apply Hmono].
      * cbn [List.length]. lia.
    + rewrite Hcmd. split; [exact HF1 | cbn [List.length]; lia].
Qed.

Lemma for_each_all_missing (ps : list string) (w : World E) :
  (forall p, In p ps -> isfile E w p = false) ->
  (forall p, In p ps -> encodable E ("File not found: " ++ p) = true) ->
  for_each E ps w =
  (map (fun p => Print ("File not found: " ++ p)) ps, w, inl tt).
Proof.
  induction ps as [|p ps IH]; intros Hm He; [reflexivity|].
  assert (Hv : visit E p w = ([Print ("File not found: " ++ p)], w, inl tt)).
  { rewrite visit_run, (Hm p) by now left.
    apply print_encodable, He. now left. }
  rewrite for_each_cons, (bind_returned _ _ _ _ _ _ Hv).
  rewrite IH; [reflexivity | |]; intros q Hq; [apply Hm | apply He]; now right.
Qed.

Lemma for_each_printed (ps : list string) (w : World E) :
  completion (for_each E ps w) = inl tt ->
  List.length (printed (trace (for_each E ps w))) = List.length ps.
Proof.
  revert w; induction ps as [|p ps IH]; intros w; [reflexivity|].
  destruct (for_each_step E p ps w) as (r & Hr & [[Hc ->] | (e & Hc & ->)]);
    destruct (visited_summary p w r Hr) as (_ & _ & Hone).
  - rewrite completion_prepend, trace_prepend, printed_app, List.length_app.
    intros Hrest. rewrite (Hone Hc), (IH _ Hrest). reflexivity.
  - congruence.
Qed.

Lemma for_each_stable (ps : list string) (w : World E) :
  (forall w' cmd q, isfile E (fst (spawn E w' cmd)) q = isfile E w' q) ->
  exists rest,
    map command (filter (isfile E w) ps) =
      (commands_run (trace (for_each E ps w)) ++ rest)%list /\
    (completion (for_each E ps w) = inl tt -> rest = []).
Proof.
  intros Hst. revert w; induction ps as [|p ps IH]; intros w.
  - exists []. now split.
  - assert (Hmap : map command (filter (isfile E w) (p :: ps)) =
                   ((if isfile E w p then [command p] else [])
                    ++ map command (filter (isfile E w) ps))%list)
      by (cbn [filter]; now destruct (isfile E w p)).
    rewrite Hmap.
    destruct (for_each_step E p ps w) as (r & Hr & [[Hc ->] | (e & Hc & ->)]);
      destruct (visited_summary p w r Hr) as (Hcmd & Hw & _).
    + destruct (IH (world r)) as (rest & Heq & Hrest). exists rest.
      rewrite (filter_ext (isfile E w) (isfile E (world r))).
      * rewrite completion_prepend, trace_prepend, commands_run_app, Hcmd, Heq.
        split; [now rewrite app_assoc | exact Hrest].
      * intros q. rewrite Hw. destruct (isfile E w p); [|reflexivity].
        symmetry. apply Hst.
    + exists (map command (filter (isfile E w) ps)).
      rewrite Hcmd. split; [reflexivity | congruence].
Qed.

End RunFacts.

(** X4: when the loop comes to an existing path and the compiler run for
    it returns status 0, the driver builds the line
    "Compiled <path> to <output path>".  If standard output can encode
    that line, it is printed right after the run and the loop goes on with
    the remaining paths, in the world the compiler left; if not, [print]
    raises, nothing is written and the run ends there, although the
    shader was compiled. *)
Theorem zero_exit_reported_and_continues
        (E : Env) (prog : string) (pre : list string) (p : string)
        (post : list string) (w w1 w2 : World E) (t1 : list event) :
  for_each E pre w = (t1, w1, inl tt) ->
  isfile E w1 p = true ->
  spawn E w1 (command p) = (w2, Exited 0) ->
  let line := "Compiled " ++ p ++ " to " ++ output_path p in
  main E (prog :: pre ++ p :: post) w =
  if encodable E line
  then prepend
         (t1 ++ [Run ["glslc"; p; "-o"; output_path p] (Exited 0); Print line])
         (for_each E post w2)
  else ((t1 ++ [Run ["glslc"; p; "-o"; output_path p] (Exited 0);
                PrintRaised line])%list, w2,
        inr (UnicodeEncodeError line)).
Proof.
  intros Hpre Hp Hs line.
  rewrite (main_reaches E prog pre p post w w1 t1 Hpre).
  assert (Hv : visit E p w1 =
               prepend [Run (command p) (Exited 0)] (print E line w2))
    by (rewrite visit_run, Hp, compile_shader_run; cbv zeta; now rewrite Hs).
  destruct (print_cases E line w2) as [[He Hpr] | [He Hpr]];
    rewrite He; rewrite Hpr in Hv.
  - rewrite (bind_returned _ _ _ _ _ _ Hv). apply prepend_prepend.
  - now rewrite (bind_raised _ _ _ _ _ _ Hv).
Qed.

Lemma zero_exit_reported_and_continues_witness :
  main Demo.env
    ["compile_shaders.py"; "shaders/missing.vert"; Demo.raw_name;
     "shaders/b.frag"] Demo.disk_with_raw_name =
  (([Print "File not found: shaders/missing.vert"] ++
    [Run ["glslc"; Demo.raw_name; "-o"; output_path Demo.raw_name] (Exited 0);
     PrintRaised ("Compiled " ++ Demo.raw_name ++ " to "
                  ++ output_path Demo.raw_name)])%list,
   output_path Demo.raw_name :: Demo.disk_with_raw_name,
   inr (UnicodeEncodeError ("Compiled " ++ Demo.raw_name ++ " to "
                            ++ output_path Demo.raw_name))).
Proof.
  apply (zero_exit_reported_and_continues Demo.env "compile_shaders.py"
           ["shaders/missing.vert"] Demo.raw_name ["shaders/b.frag"]
           Demo.disk_with_raw_name Demo.disk_with_raw_name
           (output_path Demo.raw_name :: Demo.disk_with_raw_name)).
  - reflexivity.
  - reflexivity.
  - reflexivity.
Defined.

(** X5: whatever the arguments and the environment, every command the
    script runs is [glslc; p; -o; output_path p] for a path argument [p],
    and it runs at most one command per path argument. *)
Theorem only_glslc_on_given_paths (E : Env) (argv : list string) (w : World E) :
  Forall (fun cmd => exists p, In p (tl argv) /\
                               cmd = ["glslc"; p; "-o"; output_path p])
         (commands_run (trace (main E argv w))) /\
  List.length (commands_run (trace (main E argv w))) <= List.length (tl argv).
Proof.
  destruct (main_cases E argv w) as [(_ & Htl & ->) | (_ & ->)].
  - rewrite Htl. split; [constructor | reflexivity].
  - apply for_each_commands.
Qed.

(** X7: with at least one path argument, when none of the path arguments
    is a regular file and standard output can encode the
    "File not found" line of each of them, the script prints one such
    line per argument, in the order given, runs no command, leaves the
    world as it was and ends with status 0. *)
Theorem all_paths_missing
        (E : Env) (argv : list string) (w : World E) :
  2 <= List.length argv ->
  (forall p, In p (tl argv) -> isfile E w p = false) ->
  (forall p, In p (tl argv) -> encodable E ("File not found: " ++ p) = true) ->
  main E argv w =
    (map (fun p => Print ("File not found: " ++ p)) (tl argv), w, inl tt) /\
  exit_status (main E argv w) = 0%Z.
Proof.
  intros Hlen Hmiss Henc. rewrite (main_run E argv w Hlen).
  rewrite (for_each_all_missing E (tl argv) w Hmiss Henc). now split.
Qed.

Lemma all_paths_missing_witness :
  main Demo.env ["compile_shaders.py"; "x.vert"; "shaders/y.frag"] Demo.disk =
    ([Print "File not found: x.vert"; Print "File not found: shaders/y.frag"],
     Demo.disk, inl tt) /\
  exit_status
    (main Demo.env ["compile_shaders.py"; "x.vert"; "shaders/y.frag"]
       Demo.disk) = 0%Z.
Proof.
  apply (all_paths_missing Demo.env
           ["compile_shaders.py"; "x.vert"; "shaders/y.frag"] Demo.disk).
  - simpl. lia.
  - intros p Hp. simpl in Hp. destruct Hp as [<- | [<- | []]]; reflexivity.
  - intros p Hp. simpl in Hp. destruct Hp as [<- | [<- | []]]; reflexivity.
Defined.

(** X8: a run that ends with exit status 0 has printed exactly one line
    per path argument (a "Compiled", an "Error compiling" or a
    "File not found" line). *)
Theorem one_line_per_path (E : Env) (argv : list string) (w : World E) :
  exit_status (main E argv w) = 0%Z ->
  List.length (printed (trace (main E argv w))) = List.length (tl argv).
Proof.
  destruct (main_cases E argv w) as [(_ & _ & ->) | (_ & ->)].
  - discriminate.
  - intros H. apply for_each_printed.
    unfold exit_status in H.
    destruct (for_each_completion E (tl argv) w)
      as [(Hc & _) | [(cmd & d & Hc & _) | (line & Hc & _)]];
      [exact Hc | |]; rewrite Hc in H; discriminate H.
Qed.

Lemma one_line_per_path_witness :
  List.length
    (printed (trace (main Demo.env
                       ["compile_shaders.py"; "shaders/bad.vert";
                        "nowhere.vert"; "shaders/a.vert"] Demo.disk))) = 3.
Proof.
  apply (one_line_per_path Demo.env
           ["compile_shaders.py"; "shaders/bad.vert"; "nowhere.vert";
            "shaders/a.vert"] Demo.disk).
  reflexivity.
Defined.

(** X9: when running a command never changes which paths are regular
    files, the commands run are those of the path arguments that are
    regular files, in the order given: all of them when the run ends with
    status 0, and otherwise those up to the one at which the run ended. *)
Theorem commands_follow_existing_paths
        (E : Env) (argv : list string) (w : World E) :
  (forall w' cmd q, isfile E (fst (spawn E w' cmd)) q = isfile E w' q) ->
  exists rest,
    map command (filter (isfile E w) (tl argv)) =
      (commands_run (trace (main E argv w)) ++ rest)%list /\
    (exit_status (main E argv w) = 0%Z -> rest = []).
Proof.
  intros Hst.
  destruct (main_cases E argv w) as [(_ & Htl & ->) | (_ & ->)].
  - rewrite Htl. exists []. now split.
  - destruct (for_each_stable E (tl argv) w Hst) as (rest & Heq & Hrest).
    exists rest. split; [exact Heq|]. intros H. apply Hrest.
    unfold exit_status in H.
    destruct (for_each_completion E (tl argv) w)
      as [(Hc & _) | [(cmd & d & Hc & _) | (line & Hc & _)]];
      [exact Hc | |]; rewrite Hc in H; discriminate H.
Qed.

Lemma commands_follow_existing_paths_witness :
  exists rest,
    map command
        (filter (isfile Demo.env_check_only Demo.disk)
                (tl ["compile_shaders.py"; "shaders/bad.vert"; "nowhere.vert";
                     "shaders/a.vert"])) =
      (commands_run
         (trace (main Demo.env_check_only
                   ["compile_shaders.py"; "shaders/bad.vert"; "nowhere.vert";
                    "shaders/a.vert"] Demo.disk)) ++ rest)%list /\
    (exit_status
       (main Demo.env_check_only
          ["compile_shaders.py"; "shaders/bad.vert"; "nowhere.vert";
           "shaders/a.vert"] Demo.disk) = 0%Z -> rest = []).
Proof.
  apply (commands_follow_existing_paths Demo.env_check_only
           ["compile_shaders.py"; "shaders/bad.vert"; "nowhere.vert";
            "shaders/a.vert"] Demo.disk).
  intros w' cmd q. reflexivity.
Defined.

(** X10: no [CalledProcessError] ever leaves the script.  A run ends
    normally, or with [SystemExit(1)] (only when there is no path
    argument), or with the [OSError] of a compiler that could not be
    started (its failed run is in the trace), or with the
    [UnicodeEncodeError] of a line that standard output cannot encode. *)
Theorem called_process_error_never_escapes
        (E : Env) (argv : list string) (w : World E) :
  (forall rc cmd, completion (main E argv w) <> inr (CalledProcessError rc cmd)) /\
  (completion (main E argv w) = inl tt \/
   (List.length argv < 2 /\ completion (main E argv w) = inr (SystemExit 1)) \/
   (exists cmd detail,
      completion (main E argv w) = inr (OSError detail) /\
      In (Run cmd (NotStarted detail)) (trace (main E argv w))) \/
   (exists line,
      completion (main E argv w) = inr (UnicodeEncodeError line) /\
      encodable E line = false)).
Proof.
  assert (H : completion (main E argv w) = inl tt \/
    (List.length argv < 2 /\ completion (main E argv w) = inr (SystemExit 1)) \/
    (exists cmd detail,
       completion (main E argv w) = inr (OSError detail) /\
       In (Run cmd (NotStarted detail)) (trace (main E argv w))) \/
    (exists line,
       completion (main E argv w) = inr (UnicodeEncodeError line) /\
       encodable E line = false)).
  { destruct (main_cases E argv w) as [(Hlt & _ & ->) | (_ & ->)].
    - right. left. now split.
    - destruct (for_each_completion E (tl argv) w)
        as [(Hc & _) | [(cmd & d & Hc & Hin) | (line & Hc & He & _)]].
      + now left.
      + right. right. left. now exists cmd, d.
      + right. right. right. now exists line. }
  split; [|exact H].
  intros rc cmd Hc.
  destruct H as [H | [[_ H] | [(c & d & H & _) | (line & H & _)]]];
    rewrite H in Hc; discriminate Hc.
Qed.
